(** * Driving logic of the qutip example scripts

    A shallow embedding of three example scripts of the repository:
    - [examples/ex_JC_model.py]       (function [jc_integrate]),
    - [qutip/examples/spinchain.py]   (inner function [integrate]),
    - [qutip/examples/ex_25.py]       (function [compute]).

    Python floats are idealised as the elements of an ordered field [K]
    (exact arithmetic, no rounding, no NaN); operators are square matrices
    over [K].  The numerical library that the scripts call ([tensor],
    [qeye], [destroy], the Pauli matrices, [dag], [sqrt], [exp], the
    solvers) is not part of the scripts: solvers and elementary functions
    are parameters of the sections below, the tensor product and the
    identity are given their mathematical definition. *)

From Stdlib Require Import String.
From HB Require Import structures.
From mathcomp Require Import boot order algebra.

Set Implicit Arguments.
Unset Strict Implicit.
Unset Printing Implicit Defensive.

Import GRing.Theory Num.Theory Order.Theory.
Local Open Scope ring_scope.

(** ** Python exceptions and the error monad *)

Inductive exn : Type :=
  | IndexError          (* sequence index out of range *)
  | UnboundLocalError   (* local variable read before assignment *)
  | SolverError.        (* raised inside an external solver *)

Inductive result (A : Type) : Type :=
  | Ok of A
  | Raise of exn.

Arguments Raise {A} e.

Definition bind {A B : Type} (c : result A) (k : A -> result B) : result B :=
  match c with
  | Ok a => k a
  | Raise e => Raise e
  end.

Notation "x <- c ;; k" := (bind c (fun x => k))
  (at level 100, c at next level, right associativity).
Notation "' p <- c ;; k" := (bind c (fun x => let p := x in k))
  (at level 100, p pattern, c at next level, right associativity).

Definition is_ok {A : Type} (c : result A) : bool :=
  if c is Ok _ then true else false.

(** A [for] loop whose body may raise: the state is threaded through the
    items in order and the first exception aborts the loop. *)
Fixpoint for_each {S I : Type} (body : S -> I -> result S) (s : S)
    (items : seq I) : result S :=
  match items with
  | [::] => Ok s
  | i :: items' => s' <- body s i ;; for_each body s' items'
  end.

(** ** Python sequences *)

Section PySeq.
Variable A : Type.

(** Position designated by the index [i] in a sequence of length [len]:
    a negative index counts from the end, anything outside
    [-len .. len-1] is an IndexError. *)
Definition norm_index (len : nat) (i : int) : result nat :=
  match i with
  | Posz n => if (n < len)%N then Ok n else Raise IndexError
  | Negz m => if (m < len)%N then Ok (len - m.+1)%N else Raise IndexError
  end.

Fixpoint onth (l : seq A) (k : nat) : option A :=
  match l, k with
  | [::], _ => None
  | x :: _, 0%N => Some x
  | _ :: l', k'.+1 => onth l' k'
  end.

(** [l[i]] *)
Definition getitem (l : seq A) (i : int) : result A :=
  k <- norm_index (size l) i ;;
  if onth l k is Some x then Ok x else Raise IndexError.

(** The sequence [l] with its element at position [k] replaced by [v]. *)
Definition update (l : seq A) (k : nat) (v : A) : seq A :=
  take k l ++ v :: drop k.+1 l.

(** [l[i] = v] *)
Definition setitem (l : seq A) (i : int) (v : A) : result (seq A) :=
  k <- norm_index (size l) i ;; Ok (update l k v).

(** [xrange(n)] *)
Definition xrange (n : nat) : seq int := [seq Posz k | k <- iota 0 n].

Lemma norm_index_lt len i k : norm_index len i = Ok k -> (k < len)%N.
Proof.
case: i => n /=; case: ifP => // lt_n [<-] //.
by rewrite ltn_subrL /= (leq_ltn_trans (leq0n n) lt_n).
Qed.

Lemma norm_index_nat len (n : nat) :
  (n < len)%N -> norm_index len (Posz n) = Ok n.
Proof. by move=> /= ->. Qed.

(** The site designated by an index of [-len .. len-1]. *)
Definition position (len : nat) (i : int) : nat :=
  match i with
  | Posz n => n
  | Negz m => (len - m.+1)%N
  end.

Lemma norm_indexE len (i : int) :
  norm_index len i =
  if (- len%:Z <= i) && (i < len%:Z) then Ok (position len i)
  else Raise IndexError.
Proof.
case: i => n /=; first by rewrite leNz_nat ltz_nat.
by rewrite NegzE lerN2 lez_nat ltNz_nat /= andbT.
Qed.

Lemma size_update l k v : (k < size l)%N -> size (update l k v) = size l.
Proof.
move=> lt_k; rewrite /update size_cat /= size_take_min size_drop.
by rewrite (minn_idPl (ltnW lt_k)) subnSK // subnKC // ltnW.
Qed.

Lemma nth_update x0 l k v j :
  (k < size l)%N -> nth x0 (update l k v) j = if j == k then v else nth x0 l j.
Proof.
move=> lt_k; rewrite /update nth_cat size_take_min (minn_idPl (ltnW lt_k)).
case: (ltngtP j k) => [lt_j|lt_j|->]; first by rewrite nth_take.
  by rewrite -(subnSK lt_j) /= nth_drop subnKC.
by rewrite subnn.
Qed.

Lemma update_update l k v w :
  (k < size l)%N -> update (update l k v) k w = update l k w.
Proof.
move=> lt_k; have sz_take : size (take k l) = k by rewrite size_takel // ltnW.
by rewrite /update take_size_cat // -(cat_rcons v) drop_size_cat ?size_rcons ?sz_take.
Qed.

Lemma all_update (p : pred A) l k v :
  all p l -> p v -> all p (update l k v).
Proof.
rewrite -{1}(cat_take_drop k l) /update !all_cat /= => /andP[-> Hd] -> /=.
by move: Hd; rewrite -{1}(cat_take_drop 1 (drop k l)) all_cat drop_drop add1n
  => /andP[].
Qed.

Lemma take_update l k v :
  (k < size l)%N -> take k.+1 (update l k v) = rcons (take k l) v.
Proof.
move=> lt_k; rewrite /update -cat_rcons take_size_cat //.
by rewrite size_rcons size_takel // ltnW.
Qed.

Lemma drop_update l k v j :
  (k < size l)%N -> drop (k.+1 + j) (update l k v) = drop (k.+1 + j) l.
Proof.
move=> lt_k; rewrite /update -cat_rcons drop_cat size_rcons size_takel ?(ltnW lt_k) //.
by rewrite ltnNge leq_addr /= addKn drop_drop addnC.
Qed.

Lemma onth_nth x0 l k : (k < size l)%N -> onth l k = Some (nth x0 l k).
Proof. by elim: l k => [|x l IH] [|k] //= /IH. Qed.

Lemma getitem_nat x0 l (n : nat) :
  (n < size l)%N -> getitem l (Posz n) = Ok (nth x0 l n).
Proof. by move=> lt_n; rewrite /getitem /= lt_n /= (onth_nth x0). Qed.

Lemma getitem_out l (n : nat) :
  (size l <= n)%N -> getitem l (Posz n) = Raise IndexError.
Proof. by rewrite /getitem /= ltnNge => ->. Qed.

Lemma setitem_ok l i v k :
  norm_index (size l) i = Ok k -> setitem l i v = Ok (update l k v).
Proof. by rewrite /setitem => ->. Qed.

End PySeq.

Lemma for_each_rcons {S I : Type} (body : S -> I -> result S) s items i :
  for_each body s (rcons items i) =
  (s' <- for_each body s items ;; body s' i).
Proof.
elim: items s => [|j items IH] s /=; first by case: (body s i).
by case: (body s j) => //= s'.
Qed.

(** An outcome that is a value or an IndexError. *)
Definition ok_or_index_error {A : Type} (c : result A) : Prop :=
  match c with
  | Ok _ => True
  | Raise e => e = IndexError
  end.

Lemma bind_ok_or_index_error {A B : Type} (c : result A)
    (k : A -> result B) :
  ok_or_index_error c -> (forall a, ok_or_index_error (k a)) ->
  ok_or_index_error (bind c k).
Proof. by case: c => [a|e] //= _; apply. Qed.

Lemma getitem_ok_or_index_error {A : Type} (l : seq A) (i : int) :
  ok_or_index_error (getitem l i).
Proof.
rewrite /getitem norm_indexE; case: ifP => //= _.
by case: (onth _ _).
Qed.

Lemma getitem_ok_lt {A : Type} (l : seq A) (k : nat) :
  is_ok (getitem l (Posz k)) -> (k < size l)%N.
Proof. by case: ltnP => // /getitem_out ->. Qed.

Lemma for_each_ok_or_index_error {S I : Type} (body : S -> I -> result S)
    s items :
  (forall s' i, ok_or_index_error (body s' i)) ->
  ok_or_index_error (for_each body s items).
Proof.
move=> Hbody; elim: items s => [|i items IH] s //=.
by apply: bind_ok_or_index_error.
Qed.

(** A loop that ends normally has run its body with success at each of
    its items. *)
Lemma for_each_ok_mem {S : Type} {I : eqType} (body : S -> I -> result S)
    s items i :
  is_ok (for_each body s items) -> i \in items ->
  exists s1, is_ok (body s1 i).
Proof.
elim: items s => [|j items IH] s //=.
case E: (body s j) => [s'|] //= ok_rest; rewrite inE => /orP[/eqP ->|i_in].
  by exists s; rewrite E.
exact: IH ok_rest i_in.
Qed.

Lemma mem_xrange n k : (Posz k \in xrange n) = (k < n)%N.
Proof.
have inj : injective Posz by move=> a b [].
by rewrite /xrange (mem_map inj) mem_iota add0n.
Qed.


Lemma xrangeS n : xrange n.+1 = rcons (xrange n) (Posz n).
Proof. by rewrite /xrange -addn1 iotaD map_cat /= cats1. Qed.

(** A loop over [xrange(n)] whose body succeeds at every index below [n]
    is the left fold of the values it computes. *)
Lemma for_each_xrange {S : Type} (body : S -> int -> result S)
    (f : S -> nat -> S) n s :
  (forall s' k, (k < n)%N -> body s' (Posz k) = Ok (f s' k)) ->
  for_each body s (xrange n) = Ok (foldl f s (iota 0 n)).
Proof.
elim: n => [|n IH] Hbody //.
rewrite xrangeS for_each_rcons (IH (fun s' k lt_k => Hbody s' k (ltnW lt_k))).
by rewrite -[n.+1]addn1 iotaD /= cats1 foldl_rcons add0n Hbody.
Qed.

Lemma foldl_sum (V : nmodType) (F : nat -> V) n (H : V) :
  foldl (fun H k => H + F k) H (iota 0 n) = H + \sum_(0 <= k < n) F k.
Proof.
elim: n => [|n IH]; first by rewrite big_geq // addr0.
by rewrite -addn1 iotaD /= cats1 foldl_rcons IH addn1 big_nat_recr //= addrA.
Qed.

(** ** The rate gate *)

Section Assembler.
Variable K : numFieldType.
Variable sqrtK : K -> K.
Variable d : nat.

(** Follows the spec's words: [assemble(rate, operator)] returns
    [sqrt(rate) * operator] if [rate > 0], otherwise nothing. *)
Definition assemble (rate : K) (operator : 'M[K]_d) : option 'M[K]_d :=
  if 0 < rate then Some (sqrtK rate *: operator) else None.

(** Follows the spec's words: for a thermally coupled mode, two candidate
    terms, de-excitation at rate [kappa * (1 + n_th)] with the operator of
    the mode and excitation at rate [kappa * n_th] with its adjoint. *)
Definition thermal_terms (kappa n_th : K) (op op_dag : 'M[K]_d) :
    seq (option 'M[K]_d) :=
  [:: assemble (kappa * (1 + n_th)) op; assemble (kappa * n_th) op_dag].

Lemma assembleP (rate : K) (operator : 'M[K]_d) :
  assemble rate operator = Some (sqrtK rate *: operator) <-> 0 < rate.
Proof. by rewrite /assemble; case: (0 < rate). Qed.

Lemma assemble_nonpos (rate : K) (operator : 'M[K]_d) :
  rate <= 0 -> assemble rate operator = None.
Proof. by rewrite /assemble => /le_gtF ->. Qed.

(** The statement [if rate > 0.0: c.append(sqrt(rate) * op)]. *)
Lemma append_if_positive (rate : K) (op : 'M[K]_d) (c : seq 'M[K]_d) :
  (if 0 < rate then rcons c (sqrtK rate *: op) else c) =
  c ++ pmap id [:: assemble rate op].
Proof. by rewrite /assemble; case: (0 < rate); rewrite /= ?cats1 ?cats0. Qed.

End Assembler.

(** ** The spin chain: [spinchain.py], function [integrate] *)

Module SpinChain.
Section Chain.

Variable K : numFieldType.

(** Elementary functions of the numerical library. *)
Variable sqrtK : K -> K.

(** [sigmax()], [sigmay()], [sigmaz()]: elementary operators returned by
    the library. *)
Variables sx sy sz : 'M[K]_2.

(** External solvers.  [State], [Expt] are the library's types of initial
    states and of expectation-value tables. *)
Variables State Expt : Type.

(** Number of spins, the argument [N] of [integrate]. *)
Variable N : nat.

(** Basis configurations of the chain: one level in [{0, 1}] per site.
    Operators of the chain are the square matrices indexed by them. *)
Definition conf : Type := {ffun 'I_N -> 'I_2}.
Definition Op : Type := 'M[K]_#|{ffun 'I_N -> 'I_2}|.

Definition cf (r : 'I_#|{ffun 'I_N -> 'I_2}|) : {ffun 'I_N -> 'I_2} :=
  enum_val r.

Variable me_ode_solve :
  Op -> State -> seq K -> seq Op -> seq Op -> result Expt.
Variable mcsolve :
  Op -> State -> seq K -> nat -> seq Op -> seq Op -> result Expt.

(** Modelled from the spec: [qeye(2)], the identity on one subsystem. *)
Definition qeye2 : 'M[K]_2 := 1%:M.

(** Modelled from the spec: [tensor(op_list)], the operator on the
    composite space whose factor at site [s] is the [s]-th operator of the
    list.  Its entry between two configurations is the product over the
    sites of the entries of the factors. *)
Definition tensor (op_list : seq 'M[K]_2) : Op :=
  \matrix_(r, c) \prod_(s < N) (nth qeye2 op_list s) (cf r s) (cf c s).

(** Lines 37-39: [op_list = []] followed by N appends of [si]. *)
Definition fresh_op_list (si : 'M[K]_2) : seq 'M[K]_2 :=
  foldl (fun op_list _ => rcons op_list si) [::] (xrange N).

(** Lines 37-42 with the site index and the elementary operator as
    arguments: the lift of [op] to site [n]. *)
Definition lift (op : 'M[K]_2) (n : int) : result Op :=
  let si := qeye2 in
  op_list <- setitem (fresh_op_list si) n op ;;
  Ok (tensor op_list).

(** Lines 37-48: body of the first loop for the site [n].  The same
    [op_list] is overwritten at position [n] three times. *)
Definition site_ops (n : int) : result (Op * Op * Op) :=
  let si := qeye2 in
  let op_list := fresh_op_list si in
  op_list <- setitem op_list n sx ;;
  let X := tensor op_list in
  op_list <- setitem op_list n sy ;;
  let Y := tensor op_list in
  op_list <- setitem op_list n sz ;;
  let Z := tensor op_list in
  Ok (X, Y, Z).

(** Lines 32-48: the three lists of lifted operators. *)
Definition sigma_lists : result (seq Op * seq Op * seq Op) :=
  for_each
    (fun '(sx_list, sy_list, sz_list) n =>
       '(X, Y, Z) <- site_ops n ;;
       Ok (rcons sx_list X, rcons sy_list Y, rcons sz_list Z))
    ([::], [::], [::]) (xrange N).

(** Lines 50-61: the Hamiltonian.  [H = 0] is the zero operator; the
    literal [0.5] is one half; Python parses [- 0.5 * c * A * B] as
    [(((-0.5) * c) * A) * B]. *)
Definition half : K := 2%:R^-1.

Definition energy_terms (h : seq K) (sz_list : seq Op) (H : Op) :
    result Op :=
  for_each
    (fun H n =>
       h_n <- getitem h n ;;
       sz_n <- getitem sz_list n ;;
       Ok (H + (- half * h_n) *: sz_n))
    H (xrange N).

Definition interaction_terms (Jx Jy Jz : seq K)
    (sx_list sy_list sz_list : seq Op) (H : Op) : result Op :=
  for_each
    (fun H n =>
       Jx_n <- getitem Jx n ;;
       sx_n <- getitem sx_list n ;;
       sx_n1 <- getitem sx_list (n + 1) ;;
       let H := H + ((- half * Jx_n) *: sx_n) *m sx_n1 in
       Jy_n <- getitem Jy n ;;
       sy_n <- getitem sy_list n ;;
       sy_n1 <- getitem sy_list (n + 1) ;;
       let H := H + ((- half * Jy_n) *: sy_n) *m sy_n1 in
       Jz_n <- getitem Jz n ;;
       sz_n <- getitem sz_list n ;;
       sz_n1 <- getitem sz_list (n + 1) ;;
       let H := H + ((- half * Jz_n) *: sz_n) *m sz_n1 in
       Ok H)
    H (xrange (N - 1)).

Definition hamiltonian (h Jx Jy Jz : seq K)
    (sx_list sy_list sz_list : seq Op) : result Op :=
  let H := 0 in
  H <- energy_terms h sz_list H ;;
  interaction_terms Jx Jy Jz sx_list sy_list sz_list H.

(** Lines 64-70: spin dephasing, one gated term per site. *)
Definition collapse_ops (gamma : seq K) (sz_list : seq Op) :
    result (seq Op) :=
  for_each
    (fun c_op_list n =>
       g <- getitem gamma n ;;
       if 0 < g then
         g <- getitem gamma n ;;
         sz_n <- getitem sz_list n ;;
         Ok (rcons c_op_list (sqrtK g *: sz_n))
       else Ok c_op_list)
    [::] (xrange N).

(** Lines 72-79: the solver is selected by a string; [expt_list] is bound
    only in the two branches, and reading it unbound is an
    UnboundLocalError. *)
Definition run_solver (solver : string) (H : Op) (psi0 : State)
    (tlist : seq K) (c_op_list sz_list : seq Op) : result Expt :=
  expt_list <-
    (if String.eqb solver "ode" then
       r <- me_ode_solve H psi0 tlist c_op_list sz_list ;; Ok (Some r)
     else if String.eqb solver "mc" then
       let ntraj := 250%N in
       r <- mcsolve H psi0 tlist ntraj c_op_list sz_list ;; Ok (Some r)
     else Ok None) ;;
  if expt_list is Some e then Ok e else Raise UnboundLocalError.

(** Lines 20-79. *)
Definition integrate (h Jx Jy Jz : seq K) (psi0 : State) (tlist : seq K)
    (gamma : seq K) (solver : string) : result Expt :=
  '(sx_list, sy_list, sz_list) <- sigma_lists ;;
  H <- hamiltonian h Jx Jy Jz sx_list sy_list sz_list ;;
  c_op_list <- collapse_ops gamma sz_list ;;
  run_solver solver H psi0 tlist c_op_list sz_list.

(** *** Facts about the operator lists *)

Lemma fresh_op_listE si : fresh_op_list si = nseq N si.
Proof.
rewrite /fresh_op_list /xrange.
have E n m acc :
    foldl (fun op_list _ => rcons op_list si) acc [seq Posz k | k <- iota m n]
    = acc ++ nseq n si.
  elim: n m acc => [|n IH] m acc /=; first by rewrite cats0.
  by rewrite IH -cats1 -catA.
by rewrite E.
Qed.

(** The tensor product of the factor-wise products is the product of the
    tensor products. *)
Lemma tensor_mul (l1 l2 l3 : seq 'M[K]_2) :
  (forall s : 'I_N, nth qeye2 l3 s = nth qeye2 l1 s *m nth qeye2 l2 s) ->
  tensor l1 *m tensor l2 = tensor l3.
Proof.
move=> H; apply/matrixP => r c; rewrite !mxE.
under eq_bigr => k _ do rewrite !mxE -big_split /=.
under [RHS]eq_bigr => s _ do rewrite H mxE.
rewrite bigA_distr_bigA /=.
by rewrite (big_enum_val (fun f : {ffun 'I_N -> 'I_2} =>
  \prod_(s < N) (nth qeye2 l1 s (cf r s) (f s) *
                 nth qeye2 l2 s (f s) (cf c s)))).
Qed.

(** The operator [op] at site [p], identities elsewhere. *)
Definition lifted (op : 'M[K]_2) (p : nat) : Op :=
  tensor (update (nseq N qeye2) p op).

Lemma nth_lifted op p (s : 'I_N) : (p < N)%N ->
  nth qeye2 (update (nseq N qeye2) p op) s = if s == p :> nat then op else qeye2.
Proof. by move=> lt_p; rewrite nth_update ?size_nseq // nth_nseq ltn_ord. Qed.

Lemma lift_ok op i p : norm_index N i = Ok p -> lift op i = Ok (lifted op p).
Proof.
by move=> Hi; rewrite /lift fresh_op_listE (@setitem_ok _ _ _ _ p) ?size_nseq.
Qed.

Lemma lifted_mul A B p q : (p < N)%N -> (q < N)%N -> p != q ->
  lifted A p *m lifted B q =
  tensor (update (update (nseq N qeye2) p A) q B).
Proof.
move=> lt_p lt_q neq_pq; apply: tensor_mul => s.
rewrite nth_update ?size_update ?size_nseq // !nth_lifted //.
case: (eqVneq (s : nat) q) => [->|_]; first by rewrite eq_sym (negPf neq_pq) mul1mx.
by rewrite mulmx1.
Qed.

Lemma lifted_mulC A B p q : (p < N)%N -> (q < N)%N -> p != q ->
  lifted B q *m lifted A p =
  tensor (update (update (nseq N qeye2) p A) q B).
Proof.
move=> lt_p lt_q neq_pq; apply: tensor_mul => s.
rewrite nth_update ?size_update ?size_nseq // !nth_lifted //.
case: (eqVneq (s : nat) q) => [->|_]; first by rewrite eq_sym (negPf neq_pq) mulmx1.
by rewrite mul1mx.
Qed.

Lemma site_opsE n p : norm_index N n = Ok p ->
  site_ops n = Ok (lifted sx p, lifted sy p, lifted sz p).
Proof.
move=> Hn; have lt_p := norm_index_lt Hn.
have sz0 : size (nseq N qeye2) = N by rewrite size_nseq.
rewrite /site_ops fresh_op_listE (@setitem_ok _ _ _ _ p) ?sz0 //=.
rewrite (@setitem_ok _ _ _ _ p) ?size_update ?sz0 //= update_update ?sz0 //.
rewrite (@setitem_ok _ _ _ _ p) ?size_update ?sz0 //= update_update ?sz0 //.
Qed.

Lemma sigma_listsE :
  sigma_lists =
  Ok (mkseq (lifted sx) N, mkseq (lifted sy) N, mkseq (lifted sz) N).
Proof.
rewrite /sigma_lists.
rewrite (@for_each_xrange _ _
  (fun l k => (rcons l.1.1 (lifted sx k), rcons l.1.2 (lifted sy k),
               rcons l.2 (lifted sz k)))).
  by move=> [[xs ys] zs] k lt_k; rewrite (@site_opsE _ k) //= lt_k.
congr Ok; elim: N => [|n IH] //.
by rewrite -addn1 iotaD /= cats1 foldl_rcons IH /= add0n addn1 !mkseqS.
Qed.

(** *** Facts about the Hamiltonian *)

Lemma energy_termsE (h : seq K) (sz_list : seq Op) (H : Op) :
  (N <= size h)%N -> (N <= size sz_list)%N ->
  energy_terms h sz_list H =
  Ok (H + \sum_(0 <= n < N) (- half * h`_n) *: sz_list`_n).
Proof.
move=> le_h le_sz; rewrite /energy_terms.
rewrite (@for_each_xrange _ _
  (fun H k => H + (- half * h`_k) *: sz_list`_k)) ?foldl_sum //.
move=> H' k lt_k.
by rewrite (getitem_nat 0) ?(getitem_nat 0) //= (leq_trans lt_k).
Qed.

Lemma interaction_termsE (Jx Jy Jz : seq K)
    (sx_list sy_list sz_list : seq Op) (H : Op) :
  (N - 1 <= size Jx)%N -> (N - 1 <= size Jy)%N -> (N - 1 <= size Jz)%N ->
  (N <= size sx_list)%N -> (N <= size sy_list)%N -> (N <= size sz_list)%N ->
  interaction_terms Jx Jy Jz sx_list sy_list sz_list H =
  Ok (H + \sum_(0 <= n < N - 1)
            (((- half * Jx`_n) *: sx_list`_n) *m sx_list`_n.+1 +
             ((- half * Jy`_n) *: sy_list`_n) *m sy_list`_n.+1 +
             ((- half * Jz`_n) *: sz_list`_n) *m sz_list`_n.+1)).
Proof.
move=> le_x le_y le_z le_sx le_sy le_sz; rewrite /interaction_terms.
rewrite (@for_each_xrange _ _
  (fun H k => H + (((- half * Jx`_k) *: sx_list`_k) *m sx_list`_k.+1 +
                   ((- half * Jy`_k) *: sy_list`_k) *m sy_list`_k.+1 +
                   ((- half * Jz`_k) *: sz_list`_k) *m sz_list`_k.+1)))
  ?foldl_sum //.
move=> H' k lt_k.
have lt_k1 : (k.+1 < N)%N by move: lt_k; rewrite ltn_subRL add1n.
have lt_kN : (k < N)%N by exact: ltnW.
have I1 : (Posz k + 1) = Posz k.+1 by rewrite -PoszD addn1.
rewrite I1.
rewrite !(getitem_nat 0) /= ?addrA //;
  by [exact: leq_trans lt_kN _ | exact: leq_trans lt_k1 _ | exact: leq_trans lt_k _].
Qed.

(** Follows the spec's words: the sum of the on-site energy terms
    [-0.5 * h_n * sigma_z(n)] for [n = 0..N-1] and of the nearest-neighbour
    coupling terms [-0.5 * (Jx_n sx(n) sx(n+1) + Jy_n sy(n) sy(n+1) +
    Jz_n sz(n) sz(n+1))] for [n = 0..N-2], [sigma(n)] being the elementary
    operator lifted to site [n]. *)
Definition spec_hamiltonian (h Jx Jy Jz : seq K) : Op :=
  \sum_(0 <= n < N) - half *: (h`_n *: lifted sz n)
  + \sum_(0 <= n < N - 1)
      - half *: (Jx`_n *: (lifted sx n *m lifted sx n.+1)
                 + Jy`_n *: (lifted sy n *m lifted sy n.+1)
                 + Jz`_n *: (lifted sz n *m lifted sz n.+1)).

Lemma coupling_term (c : K) (A B : Op) :
  ((- half * c) *: A) *m B = - half *: (c *: (A *m B)).
Proof. by rewrite -scalemxAl scalerA. Qed.

(** C6.  When the parameter arrays are long enough for the chain, the
    Hamiltonian composed by [integrate] is the sum of the on-site terms
    [-0.5 h_n sz(n)], [n < N], and of the nearest-neighbour coupling terms,
    [n < N - 1]; every sigma operator is an element of the same space of
    dimension [2 ^ N], lifted by the same [tensor] with the same site
    order. *)
Theorem hamiltonian_refines_spec (h Jx Jy Jz : seq K) :
  (N <= size h)%N ->
  (N - 1 <= size Jx)%N -> (N - 1 <= size Jy)%N -> (N - 1 <= size Jz)%N ->
  exists sx_list sy_list sz_list : seq Op,
    [/\ sigma_lists = Ok (sx_list, sy_list, sz_list),
        (sx_list, sy_list, sz_list) =
          (mkseq (lifted sx) N, mkseq (lifted sy) N, mkseq (lifted sz) N),
        hamiltonian h Jx Jy Jz sx_list sy_list sz_list =
          Ok (spec_hamiltonian h Jx Jy Jz)
      & #|{ffun 'I_N -> 'I_2}| = (2 ^ N)%N].
Proof.
move=> le_h le_x le_y le_z.
exists (mkseq (lifted sx) N), (mkseq (lifted sy) N), (mkseq (lifted sz) N).
split=> //; first exact: sigma_listsE.
  rewrite /hamiltonian energy_termsE ?size_mkseq //=.
  rewrite interaction_termsE ?size_mkseq // add0r /spec_hamiltonian.
  congr (Ok (_ + _)); apply: eq_big_nat => n /andP[_ lt_n].
    by rewrite nth_mkseq // scalerA.
  have lt_n1 : (n.+1 < N)%N by move: lt_n; rewrite ltn_subRL add1n.
  by rewrite !nth_mkseq ?(ltnW lt_n1) // !coupling_term !scalerDr.
by rewrite card_ffun !card_ord.
Qed.

(** *** Facts about the collapse list *)

Lemma collapse_opsE (gamma : seq K) (sz_list : seq Op) :
  (N <= size gamma)%N -> (N <= size sz_list)%N ->
  collapse_ops gamma sz_list =
  Ok [seq sqrtK gamma`_k *: sz_list`_k
        | k <- [seq k <- iota 0 N | 0 < gamma`_k]].
Proof.
move=> le_g le_sz; rewrite /collapse_ops.
rewrite (@for_each_xrange _ _
  (fun c k => if 0 < gamma`_k then rcons c (sqrtK gamma`_k *: sz_list`_k)
              else c)).
  move=> c k lt_k.
  have lt_g : (k < size gamma)%N := leq_trans lt_k le_g.
  have lt_sz : (k < size sz_list)%N := leq_trans lt_k le_sz.
  by rewrite !(getitem_nat 0 lt_g) (getitem_nat 0 lt_sz) /=; case: ifP.
pose F k : Op := sqrtK gamma`_k *: sz_list`_k.
have E n : foldl (fun c k => if 0 < gamma`_k then rcons c (F k) else c)
                 [::] (iota 0 n) =
           [seq F k | k <- [seq k <- iota 0 n | 0 < gamma`_k]].
  elim: n => [|n IH] //.
  rewrite -addn1 iotaD /= cats1 foldl_rcons IH add0n filter_rcons.
  by case: ifP => _; rewrite ?map_rcons.
by rewrite -/F E.
Qed.

(** *** Facts about the solver selection *)

Lemma run_solver_other solver H psi0 tlist c_op_list sz_list :
  String.eqb solver "ode" = false -> String.eqb solver "mc" = false ->
  run_solver solver H psi0 tlist c_op_list sz_list = Raise UnboundLocalError.
Proof. by rewrite /run_solver => -> ->. Qed.

Lemma bind_not_ok {A B : Type} (c : result A) (k : A -> result B) :
  (forall a, ~~ is_ok (k a)) -> ~~ is_ok (bind c k).
Proof. by case: c => //= a; apply. Qed.

Lemma pmap_gate {I V : Type} (p : pred I) (F : I -> V) (s : seq I) :
  pmap (fun k => if p k then Some (F k) else None) s = [seq F k | k <- s & p k].
Proof. by elim: s => [|k s IH] //=; case: (p k); rewrite /= IH. Qed.

Lemma collapse_ops_gate (gamma : seq K) (sz_list : seq Op) :
  (N <= size gamma)%N -> (N <= size sz_list)%N ->
  exists c : seq Op,
    [/\ collapse_ops gamma sz_list = Ok c,
        c = pmap (fun k => assemble sqrtK gamma`_k (sz_list`_k : Op))
                 (iota 0 N),
        size c = count (fun k => 0 < gamma`_k) (iota 0 N),
        (size c == N) = all (fun k => 0 < gamma`_k) (iota 0 N)
      & has (fun k => gamma`_k <= 0) (iota 0 N) -> (size c < N)%N].
Proof.
move=> le_g le_sz; rewrite collapse_opsE //.
set c := map _ _; exists c.
have sz_c : size c = count (fun k => 0 < gamma`_k) (iota 0 N).
  by rewrite size_map size_filter.
have le_c : (size c <= N)%N by rewrite sz_c -{2}(size_iota 0 N) count_size.
have eq_c : (size c == N) = all (fun k => 0 < gamma`_k) (iota 0 N).
  by rewrite all_count sz_c size_iota.
split=> //; first by rewrite /assemble pmap_gate.
move=> /hasP[k k_in le_k]; rewrite ltn_neqAle le_c andbT eq_c.
by apply/allPn; exists k => //; rewrite (le_gtF le_k).
Qed.


(** C10.  With a solver selector other than ["ode"] and ["mc"] the
    function never returns a result, whatever the solvers would do; when
    the parameter arrays are long enough for the chain, the failure is the
    read of the unbound [expt_list]. *)
Theorem unknown_solver_fails (h Jx Jy Jz : seq K) (psi0 : State)
    (tlist gamma : seq K) (solver : string) :
  solver <> "ode"%string -> solver <> "mc"%string ->
  ~~ is_ok (integrate h Jx Jy Jz psi0 tlist gamma solver) /\
  ((N <= size h)%N -> (N - 1 <= size Jx)%N -> (N - 1 <= size Jy)%N ->
   (N - 1 <= size Jz)%N -> (N <= size gamma)%N ->
   integrate h Jx Jy Jz psi0 tlist gamma solver = Raise UnboundLocalError).
Proof.
move=> /String.eqb_neq not_ode /String.eqb_neq not_mc.
rewrite /integrate sigma_listsE /=; split.
  case: (hamiltonian _ _ _ _ _ _ _) => //= H.
  case: (collapse_ops _ _) => //= c.
  by rewrite run_solver_other.
move=> le_h le_x le_y le_z le_g.
rewrite /hamiltonian energy_termsE ?size_mkseq //=.
rewrite interaction_termsE ?size_mkseq //=.
by rewrite collapse_opsE ?size_mkseq //= run_solver_other.
Qed.

(** *** Further facts about [integrate] *)

Lemma hamiltonian_mkseq (h Jx Jy Jz : seq K) :
  (N <= size h)%N ->
  (N - 1 <= size Jx)%N -> (N - 1 <= size Jy)%N -> (N - 1 <= size Jz)%N ->
  hamiltonian h Jx Jy Jz
    (mkseq (lifted sx) N) (mkseq (lifted sy) N) (mkseq (lifted sz) N) =
  Ok (spec_hamiltonian h Jx Jy Jz).
Proof.
move=> le_h le_x le_y le_z.
rewrite /hamiltonian energy_termsE ?size_mkseq //=.
rewrite interaction_termsE ?size_mkseq // add0r /spec_hamiltonian.
congr (Ok (_ + _)); apply: eq_big_nat => n /andP[_ lt_n].
  by rewrite nth_mkseq // scalerA.
have lt_n1 : (n.+1 < N)%N by move: lt_n; rewrite ltn_subRL add1n.
by rewrite !nth_mkseq ?(ltnW lt_n1) // !coupling_term !scalerDr.
Qed.

(** The dephasing operators of the sites whose rate is positive, in the
    order of the sites. *)
Definition dephasing (gamma : seq K) : seq Op :=
  [seq sqrtK gamma`_k *: lifted sz k | k <- iota 0 N & 0 < gamma`_k].

Lemma collapse_ops_mkseq (gamma : seq K) :
  (N <= size gamma)%N ->
  collapse_ops gamma (mkseq (lifted sz) N) = Ok (dephasing gamma).
Proof.
move=> le_g; rewrite collapse_opsE ?size_mkseq //; congr Ok.
apply/eq_in_map => k; rewrite mem_filter mem_iota add0n => /andP[_ /andP[_ lt_k]].
by rewrite nth_mkseq.
Qed.

(** X1.  The first loop never raises: it returns three lists of [N] operators,
    the [n]-th of each being the elementary operator at site [n] with the
    identity on every other site (nothing is left of the operators written
    at the same position of [op_list] before). *)
Theorem sigma_lists_sites :
  exists sx_list sy_list sz_list : seq Op,
    [/\ sigma_lists = Ok (sx_list, sy_list, sz_list),
        size sx_list = N /\ size sy_list = N /\ size sz_list = N
      & forall n, (n < N)%N ->
          [/\ getitem sx_list n = lift sx n,
              getitem sy_list n = lift sy n,
              getitem sz_list n = lift sz n
            & lift sz n = Ok (tensor (update (nseq N qeye2) n sz))]].
Proof.
exists (mkseq (lifted sx) N), (mkseq (lifted sy) N), (mkseq (lifted sz) N).
split; first exact: sigma_listsE.
  by rewrite !size_mkseq.
move=> n lt_n.
rewrite !(getitem_nat 0) ?size_mkseq // !nth_mkseq //.
by rewrite !(@lift_ok _ _ n) ?norm_index_nat.
Qed.

Lemma integrate_run_solver (h Jx Jy Jz : seq K) (psi0 : State)
    (tlist gamma : seq K) (solver : string) :
  (N <= size h)%N ->
  (N - 1 <= size Jx)%N -> (N - 1 <= size Jy)%N -> (N - 1 <= size Jz)%N ->
  (N <= size gamma)%N ->
  integrate h Jx Jy Jz psi0 tlist gamma solver =
  run_solver solver (spec_hamiltonian h Jx Jy Jz) psi0 tlist
    (dephasing gamma) (mkseq (lifted sz) N).
Proof.
move=> le_h le_x le_y le_z le_g.
rewrite /integrate sigma_listsE /= hamiltonian_mkseq //=.
by rewrite collapse_ops_mkseq.
Qed.

(** X2.  With parameter arrays long enough for the chain, [integrate] returns
    what the selected solver returns for the Hamiltonian of the chain, the
    dephasing operators of the sites with a positive rate and the [N]
    lifted [sz] operators as observables; the Monte-Carlo solver is called
    with 250 trajectories. *)
Theorem integrate_dispatch (h Jx Jy Jz : seq K) (psi0 : State)
    (tlist gamma : seq K) :
  (N <= size h)%N ->
  (N - 1 <= size Jx)%N -> (N - 1 <= size Jy)%N -> (N - 1 <= size Jz)%N ->
  (N <= size gamma)%N ->
  integrate h Jx Jy Jz psi0 tlist gamma "ode" =
    me_ode_solve (spec_hamiltonian h Jx Jy Jz) psi0 tlist (dephasing gamma)
      (mkseq (lifted sz) N) /\
  integrate h Jx Jy Jz psi0 tlist gamma "mc" =
    mcsolve (spec_hamiltonian h Jx Jy Jz) psi0 tlist 250 (dephasing gamma)
      (mkseq (lifted sz) N).
Proof.
move=> le_h le_x le_y le_z le_g.
rewrite !integrate_run_solver // /run_solver /=.
by split; [case: (me_ode_solve _ _ _ _ _) | case: (mcsolve _ _ _ _ _ _)].
Qed.

Lemma spec_hamiltonian_take (h Jx Jy Jz : seq K) :
  spec_hamiltonian (take N h) (take (N - 1) Jx) (take (N - 1) Jy)
    (take (N - 1) Jz) = spec_hamiltonian h Jx Jy Jz.
Proof.
rewrite /spec_hamiltonian; congr (_ + _);
  by apply: eq_big_nat => n /andP[_ lt_n]; rewrite !nth_take.
Qed.

Lemma dephasing_take (gamma : seq K) :
  dephasing (take N gamma) = dephasing gamma.
Proof.
rewrite /dephasing.
have in_iota k : k \in iota 0 N -> (take N gamma)`_k = gamma`_k.
  by rewrite mem_iota add0n => /andP[_ lt_k]; rewrite nth_take.
have -> : [seq k <- iota 0 N | 0 < (take N gamma)`_k] =
          [seq k <- iota 0 N | 0 < gamma`_k].
  by apply: eq_in_filter => k /in_iota ->.
by apply/eq_in_map => k; rewrite mem_filter => /andP[_ /in_iota ->].
Qed.

(** X4.  [integrate] reads the first [N] entries of [h] and [gamma] and the
    first [N - 1] entries of [Jx], [Jy] and [Jz] only: longer arrays give
    the same result as their prefixes. *)
Theorem integrate_reads_prefix (h Jx Jy Jz : seq K) (psi0 : State)
    (tlist gamma : seq K) (solver : string) :
  (N <= size h)%N ->
  (N - 1 <= size Jx)%N -> (N - 1 <= size Jy)%N -> (N - 1 <= size Jz)%N ->
  (N <= size gamma)%N ->
  integrate (take N h) (take (N - 1) Jx) (take (N - 1) Jy) (take (N - 1) Jz)
    psi0 tlist (take N gamma) solver =
  integrate h Jx Jy Jz psi0 tlist gamma solver.
Proof.
move=> le_h le_x le_y le_z le_g.
rewrite !integrate_run_solver ?size_takel //.
by rewrite spec_hamiltonian_take dephasing_take.
Qed.

Lemma energy_terms_short (h : seq K) (sz_list : seq Op) (H : Op) :
  (size h < N)%N -> ~~ is_ok (energy_terms h sz_list H).
Proof.
move=> lt_h; apply/negP => ok_loop.
have := for_each_ok_mem ok_loop (i := Posz (size h)).
rewrite mem_xrange => /(_ lt_h) [H1].
by rewrite getitem_out.
Qed.

Lemma interaction_terms_short (Jx Jy Jz : seq K)
    (sx_list sy_list sz_list : seq Op) (H : Op) :
  ~~ [&& (N - 1 <= size Jx)%N, (N - 1 <= size Jy)%N
       & (N - 1 <= size Jz)%N] ->
  ~~ is_ok (interaction_terms Jx Jy Jz sx_list sy_list sz_list H).
Proof.
move=> short; apply/negP => ok_loop.
have body_ok k : (k < N - 1)%N ->
    [&& (k < size Jx)%N, (k < size Jy)%N & (k < size Jz)%N].
  move=> lt_k; have := for_each_ok_mem ok_loop (i := Posz k).
  rewrite mem_xrange => /(_ lt_k) [H1].
  case Ex: (getitem Jx k) => [x|] //=; rewrite (getitem_ok_lt (l := Jx)) ?Ex //.
  case: (getitem sx_list k) => //= ?; case: (getitem sx_list _) => //= ?.
  case Ey: (getitem Jy k) => [y|] //=; rewrite (getitem_ok_lt (l := Jy)) ?Ey //.
  case: (getitem sy_list k) => //= ?; case: (getitem sy_list _) => //= ?.
  by case Ez: (getitem Jz k) => [z|] //=; rewrite (getitem_ok_lt (l := Jz)) ?Ez.
move: short; rewrite !negb_and -!ltnNge => /or3P[] lt_J;
  by have /and3P[] := body_ok _ lt_J; rewrite ltnn.
Qed.

Lemma collapse_ops_short (gamma : seq K) (sz_list : seq Op) :
  (size gamma < N)%N -> ~~ is_ok (collapse_ops gamma sz_list).
Proof.
move=> lt_g; apply/negP => ok_loop.
have := for_each_ok_mem ok_loop (i := Posz (size gamma)).
rewrite mem_xrange => /(_ lt_g) [c].
by rewrite getitem_out.
Qed.

Lemma energy_terms_errors (h : seq K) (sz_list : seq Op) (H : Op) :
  ok_or_index_error (energy_terms h sz_list H).
Proof.
apply: for_each_ok_or_index_error => H' n.
by do 2![apply: bind_ok_or_index_error;
           [exact: getitem_ok_or_index_error | move=> ?]].
Qed.

Lemma interaction_terms_errors (Jx Jy Jz : seq K)
    (sx_list sy_list sz_list : seq Op) (H : Op) :
  ok_or_index_error (interaction_terms Jx Jy Jz sx_list sy_list sz_list H).
Proof.
apply: for_each_ok_or_index_error => H' n.
by do 9![apply: bind_ok_or_index_error;
           [exact: getitem_ok_or_index_error | move=> ?]].
Qed.

Lemma collapse_ops_errors (gamma : seq K) (sz_list : seq Op) :
  ok_or_index_error (collapse_ops gamma sz_list).
Proof.
apply: for_each_ok_or_index_error => c n.
apply: bind_ok_or_index_error; first exact: getitem_ok_or_index_error.
move=> g; case: ifP => // _.
by do 2![apply: bind_ok_or_index_error;
           [exact: getitem_ok_or_index_error | move=> ?]].
Qed.

(** X3.  When one of the parameter arrays is too short for the chain,
    [integrate] raises an IndexError, whatever the solver selector, and
    no solver is called. *)
Theorem short_arrays_raise (h Jx Jy Jz : seq K) (psi0 : State)
    (tlist gamma : seq K) (solver : string) :
  ~~ [&& (N <= size h)%N, (N - 1 <= size Jx)%N, (N - 1 <= size Jy)%N,
         (N - 1 <= size Jz)%N & (N <= size gamma)%N] ->
  integrate h Jx Jy Jz psi0 tlist gamma solver = Raise IndexError.
Proof.
move=> short; rewrite /integrate sigma_listsE /= /hamiltonian /=.
set sxs := mkseq (lifted sx) N; set sys := mkseq (lifted sy) N.
set szs := mkseq (lifted sz) N.
have := energy_terms_errors h szs 0.
have := @energy_terms_short h szs 0.
case: (energy_terms h szs 0) => [H1|e] /=; last by move=> _ ->.
move=> h_ok _.
have := interaction_terms_errors Jx Jy Jz sxs sys szs H1.
have := @interaction_terms_short Jx Jy Jz sxs sys szs H1.
case: (interaction_terms _ _ _ _ _ _ _) => [H2|e] /=; last by move=> _ ->.
move=> J_ok _.
have := collapse_ops_errors gamma szs.
have := @collapse_ops_short gamma szs.
case: (collapse_ops _ _) => [c|e] /=; last by move=> _ ->.
move=> g_ok _; move: short.
case: (leqP N (size h)) => [_|lt_h] /=; last by have := h_ok lt_h.
case: (leqP N (size gamma)) => [_|lt_g]; last by have := g_ok lt_g.
by rewrite !andbT => short; have := J_ok short.
Qed.

End Chain.
End SpinChain.

(** ** Two coupled modes: the composite space of [tensor(A, B)] *)

Module TwoMode.
Section Composite.

Variable K : numFieldType.

(** Dimensions of the first and of the second subsystem. *)
Variables m n : nat.

(** Operators of the composite system: square matrices indexed by the
    pairs of basis indices. *)
Definition Op : Type := 'M[K]_#|{: 'I_m * 'I_n}|.

Definition pr (r : 'I_#|{: 'I_m * 'I_n}|) : 'I_m * 'I_n := enum_val r.

(** Modelled from the spec: [tensor(A, B)] for two factors; its entries
    are the products of the entries of the factors. *)
Definition tensor (A : 'M[K]_m) (B : 'M[K]_n) : Op :=
  \matrix_(r, c) (A (pr r).1 (pr c).1 * B (pr r).2 (pr c).2).

Lemma pair_tensor_mul (A C : 'M[K]_m) (B D : 'M[K]_n) :
  tensor A B *m tensor C D = tensor (A *m C) (B *m D).
Proof.
apply/matrixP => r c; rewrite !mxE big_distrlr /=.
rewrite pair_big /=.
rewrite (big_enum_val (fun p : 'I_m * 'I_n =>
  A (pr r).1 p.1 * C p.1 (pr c).1 * (B (pr r).2 p.2 * D p.2 (pr c).2))) /=.
by apply: eq_bigr => k _; rewrite !mxE mulrACA.
Qed.

End Composite.

(** Modelled from the spec: [A.dag()], the conjugate transpose, for the
    conjugation [conj] of the scalars. *)
Definition dag (K : numFieldType) (conj : K -> K) (d : nat)
    (A : 'M[K]_d) : 'M[K]_d :=
  map_mx conj A^T.

End TwoMode.

(** ** The Jaynes-Cummings model: [ex_JC_model.py], [jc_integrate] *)

Module JaynesCummings.
Section JC.

Variable K : numFieldType.

(** [sqrt] and the complex conjugation of the numerical library. *)
Variables sqrtK conj : K -> K.

(** [destroy(d)], the annihilation operator on [d] levels. *)
Variable destroy : forall d : nat, 'M[K]_d.

(** Number of cavity Fock states, the argument [N]. *)
Variable N : nat.

Notation Op := (TwoMode.Op K N 2).
Notation dag := (@TwoMode.dag K conj _).

(** [mcsolve(H, psi0, tlist, c_op_list, expt_op_list).expect]: the list of
    the expectation-value series, one per operator of the last argument. *)
Variables State Series : Type.
Variable mcsolve :
  Op -> State -> seq K -> seq Op -> seq Op -> result (seq Series).

(** Lines 12-16. *)
Definition idc : 'M[K]_N := 1%:M.
Definition ida : 'M[K]_2 := 1%:M.
Definition a : Op := TwoMode.tensor (destroy N) ida.
Definition sm : Op := TwoMode.tensor idc (destroy 2).

(** Lines 18-22.  Python parses [c * A * B] as [(c * A) * B]. *)
Definition hamiltonian (wc wa g : K) (use_rwa : bool) : Op :=
  if use_rwa then
    (wc *: dag a) *m a + (wa *: dag sm) *m sm
    + g *: (dag a *m sm + a *m dag sm)
  else
    (wc *: dag a) *m a + (wa *: dag sm) *m sm
    + (g *: (dag a + a)) *m (sm + dag sm).

(** Lines 24-39. *)
Definition n_th_a : K := 0.

Definition collapse_list (kappa gamma : K) : seq Op :=
  let c_op_list := [::] in
  let rate := kappa * (1 + n_th_a) in
  let c_op_list :=
    if 0 < rate then rcons c_op_list (sqrtK rate *: a) else c_op_list in
  let rate := kappa * n_th_a in
  let c_op_list :=
    if 0 < rate then rcons c_op_list (sqrtK rate *: dag a) else c_op_list in
  let rate := gamma in
  let c_op_list :=
    if 0 < rate then rcons c_op_list (sqrtK rate *: sm) else c_op_list in
  c_op_list.

(** Lines 9-47. *)
Definition jc_integrate (wc wa g kappa gamma : K) (psi0 : State)
    (use_rwa : bool) (tlist : seq K) : result (Series * Series) :=
  let H := hamiltonian wc wa g use_rwa in
  let c_op_list := collapse_list kappa gamma in
  expect <- mcsolve H psi0 tlist c_op_list [:: dag a *m a; dag sm *m sm] ;;
  nc <- getitem expect 0 ;;
  na <- getitem expect 1 ;;
  Ok (nc, na).

(** *** Facts *)

Lemma collapse_listE (kappa gamma : K) :
  collapse_list kappa gamma =
  (if 0 < kappa then [:: sqrtK (kappa * (1 + n_th_a)) *: a] else [::]) ++
  (if 0 < gamma then [:: sqrtK gamma *: sm] else [::]).
Proof.
rewrite /collapse_list /n_th_a mulr0 ltxx addr0 mulr1.
by case: (0 < kappa); case: (0 < gamma).
Qed.

Lemma collapse_list_gate (kappa gamma : K) :
  collapse_list kappa gamma =
  pmap id (thermal_terms sqrtK kappa n_th_a a (dag a)
           ++ [:: assemble sqrtK gamma sm]).
Proof.
by rewrite /collapse_list /thermal_terms /assemble; do 3![case: ifP => _ //=].
Qed.

(** C5.  With coupling strength [g = 0] the Hamiltonian built with the
    rotating-wave approximation and the full Hamiltonian are equal,
    whatever the frequencies and the cavity dimension. *)
Theorem hamiltonian_zero_coupling (wc wa : K) :
  hamiltonian wc wa 0 true = hamiltonian wc wa 0 false.
Proof. by rewrite /hamiltonian !scale0r mul0mx. Qed.

(** C9.  The thermal occupation is the constant zero, so the excitation
    gate [kappa * n_th_a > 0] is closed for every [kappa]; the collapse list
    is the cavity relaxation term when [kappa > 0] followed by the atom
    relaxation term when [gamma > 0], at most two operators. *)
Theorem collapse_list_zero_temperature (kappa gamma : K) :
  [/\ n_th_a = 0,
      (0 < kappa * n_th_a) = false,
      collapse_list kappa gamma =
        (if 0 < kappa then [:: sqrtK (kappa * (1 + n_th_a)) *: a] else [::])
        ++ (if 0 < gamma then [:: sqrtK gamma *: sm] else [::]),
      size (collapse_list kappa gamma) = ((0 < kappa)%R + (0 < gamma)%R)%N
    & (size (collapse_list kappa gamma) <= 2)%N].
Proof.
have E := collapse_listE kappa gamma.
have sz : size (collapse_list kappa gamma) = ((0 < kappa)%R + (0 < gamma)%R)%N.
  by rewrite E; case: (0 < kappa); case: (0 < gamma).
split=> //; first by rewrite /n_th_a mulr0 ltxx.
by rewrite sz; case: (0 < kappa); case: (0 < gamma).
Qed.

(** X5.  The full Hamiltonian is the rotating-wave Hamiltonian plus the
    counter-rotating terms [g * (a.dag() * sm.dag() + a * sm)], which do not
    conserve the number of excitations. *)
Theorem hamiltonian_counter_rotating (wc wa g : K) :
  hamiltonian wc wa g false =
  hamiltonian wc wa g true + g *: (dag a *m dag sm + a *m sm).
Proof.
rewrite /hamiltonian -!addrA -!scalemxAl -scalerDr.
congr (_ + (_ + (_ *: _))).
rewrite mulmxDl !mulmxDr [a *m sm + _]addrC addrACA.
by rewrite [dag a *m dag sm + _]addrC.
Qed.

(** The collapse list passed to the solver is empty exactly when neither
    rate is positive: the evolution is then unitary. *)
Lemma collapse_list_empty (kappa gamma : K) :
  (collapse_list kappa gamma == [::]) = ~~ (0 < kappa) && ~~ (0 < gamma).
Proof. by rewrite collapse_listE; case: (0 < kappa); case: (0 < gamma). Qed.

End JC.
End JaynesCummings.

(** ** The sideband-cooled resonator: [ex_25.py], function [compute] *)

Module Ex25.
Section Compute.

Variable K : numFieldType.

(** [sqrt], [exp], the complex conjugation and the constant [pi] of the
    numerical library. *)
Variables sqrtK expK conj : K -> K.
Variable piK : K.

(** [destroy(d)], the annihilation operator on [d] levels. *)
Variable destroy : forall d : nat, 'M[K]_d.

(** Numbers of Fock states of the two resonators. *)
Variables N_r N_m : nat.

Notation Op := (TwoMode.Op K N_r N_m).
Notation dag := (@TwoMode.dag K conj _).

(** [steadystate(H, c_ops)] and [expect(rho, op)]. *)
Variable steadystate : Op -> seq Op -> result Op.
Variable expect : Op -> Op -> K.

(** Lines 9-10, the decimal literals read as exact fractions. *)
Definition hbar : K := (6626%:R / 10%:R ^+ 37) / (2%:R * piK).
Definition kB : K := 138%:R / 10%:R ^+ 25.

(** The local variables of [compute] that are assigned inside the loop.
    They live in the frame of the function, so each keeps its value from
    one iteration to the next; [None] is an unbound variable. *)
Record locals : Type := Locals {
  w_th : option K;
  c_ops : option (seq Op);
  n_r_th : option K;
  rate : option K;
  n_m_th : option K;
  rho_ss : option Op
}.

Definition unbound : locals := Locals None None None None None None.

Definition set_w_th (l : locals) (v : K) : locals :=
  Locals (Some v) (c_ops l) (n_r_th l) (rate l) (n_m_th l) (rho_ss l).
Definition set_c_ops (l : locals) (v : seq Op) : locals :=
  Locals (w_th l) (Some v) (n_r_th l) (rate l) (n_m_th l) (rho_ss l).
Definition set_n_r_th (l : locals) (v : K) : locals :=
  Locals (w_th l) (c_ops l) (Some v) (rate l) (n_m_th l) (rho_ss l).
Definition set_rate (l : locals) (v : K) : locals :=
  Locals (w_th l) (c_ops l) (n_r_th l) (Some v) (n_m_th l) (rho_ss l).
Definition set_n_m_th (l : locals) (v : K) : locals :=
  Locals (w_th l) (c_ops l) (n_r_th l) (rate l) (Some v) (rho_ss l).
Definition set_rho_ss (l : locals) (v : Op) : locals :=
  Locals (w_th l) (c_ops l) (n_r_th l) (rate l) (n_m_th l) (Some v).

(** Reading a local variable. *)
Definition read {A : Type} (x : option A) : result A :=
  if x is Some v then Ok v else Raise UnboundLocalError.

(** [zeros((rows, cols))] and [table[i, j] = v]. *)
Definition zeros (rows cols : nat) : seq (seq K) := nseq rows (nseq cols 0).

Definition setitem2 (table : seq (seq K)) (i j : int) (v : K) :
    result (seq (seq K)) :=
  row <- getitem table i ;;
  row <- setitem row j v ;;
  setitem table i row.

(** [enumerate(T_vec)] *)
Definition enumerate (T_vec : seq K) : seq (nat * K) :=
  zip (iota 0 (size T_vec)) T_vec.

(** The state of the sweep: the locals, the result table, and the record
    of the solver calls made so far (the Hamiltonian and the collapse list
    passed to each), which is not a variable of the program. *)
Definition sweep_state : Type :=
  (locals * seq (seq K) * seq (Op * seq Op))%type.

(** Lines 30-63: one iteration of the loop. *)
Definition sweep_point (H a b : Op) (w_r w_m kappa_r kappa_m : K)
    (st : sweep_state) (point : nat * K) : result sweep_state :=
  let '(l, photon_count, calls) := st in
  let '(idx, T) := point in
  let l := set_w_th l (kB * (T * (10%:R ^+ 3)^-1) / hbar * (10%:R ^+ 9)^-1) in
  let l := set_c_ops l [::] in
  (* high-frequency resonator *)
  w <- read (w_th l) ;;
  let l := set_n_r_th l (1 / (expK (w_r / w) - 1)) in
  n <- read (n_r_th l) ;;
  let l := set_rate l (kappa_r * (1 + n)) in
  r <- read (rate l) ;;
  l <- (if 0 < r then
          r <- read (rate l) ;; c <- read (c_ops l) ;;
          Ok (set_c_ops l (rcons c (sqrtK r *: a)))
        else Ok l) ;;
  n <- read (n_r_th l) ;;
  let l := set_rate l (kappa_r * n) in
  r <- read (rate l) ;;
  l <- (if 0 < r then
          r <- read (rate l) ;; c <- read (c_ops l) ;;
          Ok (set_c_ops l (rcons c (sqrtK r *: dag a)))
        else Ok l) ;;
  (* mechanical mode *)
  w <- read (w_th l) ;;
  let l := set_n_m_th l (1 / (expK (w_m / w) - 1)) in
  n <- read (n_m_th l) ;;
  let l := set_rate l (kappa_m * (1 + n)) in
  r <- read (rate l) ;;
  l <- (if 0 < r then
          r <- read (rate l) ;; c <- read (c_ops l) ;;
          Ok (set_c_ops l (rcons c (sqrtK r *: b)))
        else Ok l) ;;
  n <- read (n_m_th l) ;;
  let l := set_rate l (kappa_m * n) in
  r <- read (rate l) ;;
  l <- (if 0 < r then
          r <- read (rate l) ;; c <- read (c_ops l) ;;
          Ok (set_c_ops l (rcons c (sqrtK r *: dag b)))
        else Ok l) ;;
  (* steady state *)
  c <- read (c_ops l) ;;
  rho <- steadystate H c ;;
  let calls := rcons calls (H, c) in
  let l := set_rho_ss l rho in
  (* photon numbers *)
  rho <- read (rho_ss l) ;;
  photon_count <- setitem2 photon_count idx 0 (expect rho (dag a *m a)) ;;
  n <- read (n_r_th l) ;;
  photon_count <- setitem2 photon_count idx 1 n ;;
  rho <- read (rho_ss l) ;;
  photon_count <- setitem2 photon_count idx 2 (expect rho (dag b *m b)) ;;
  n <- read (n_m_th l) ;;
  photon_count <- setitem2 photon_count idx 3 n ;;
  Ok (l, photon_count, calls).

(** Lines 21-26: the operators and the Hamiltonian, built once. *)
Definition mode_a : Op := TwoMode.tensor (destroy N_r) 1%:M.
Definition mode_b : Op := TwoMode.tensor 1%:M (destroy N_m).

Definition hamiltonian (w_r w_m g w_d A : K) : Op :=
  let a := mode_a in
  let b := mode_b in
  ((w_r - w_d) *: dag a) *m a + (w_m *: dag b) *m b
  + (g *: (dag a *m a)) *m (b + dag b) + (2%:R^-1 * A) *: (a + dag a).

(** Lines 28-63: the sweep, from the table allocated before it. *)
Definition sweep (T_vec : seq K) (w_r w_m g w_d A kappa_r kappa_m : K) :
    result sweep_state :=
  let a := mode_a in
  let b := mode_b in
  let H := hamiltonian w_r w_m g w_d A in
  let photon_count := zeros (size T_vec) 4 in
  for_each (sweep_point H a b w_r w_m kappa_r kappa_m)
    (unbound, photon_count, [::]) (enumerate T_vec).

(** Lines 18-65. *)
Definition compute (T_vec : seq K) (w_r w_m g w_d A kappa_r kappa_m : K) :
    result (seq (seq K)) :=
  '(_, photon_count, _) <- sweep T_vec w_r w_m g w_d A kappa_r kappa_m ;;
  Ok photon_count.

(** *** Facts about one sweep point *)

Section Point.

Variables (H a b : Op) (w_r w_m kappa_r kappa_m : K).

(** Line 33: the temperature in frequency units. *)
Definition thermal_scale (T : K) : K :=
  kB * (T * (10%:R ^+ 3)^-1) / hbar * (10%:R ^+ 9)^-1.

(** Follows the spec's words: the Bose occupation [1/(exp(w/w_th) - 1)]. *)
Definition bose (w w_th : K) : K := 1 / (expK (w / w_th) - 1).

(** The collapse list, the row of the table and the locals determined by
    the temperature [T] alone (and by the steady state [rho] found for
    it). *)
Definition collapse_at (T : K) : seq Op :=
  pmap id
    (thermal_terms sqrtK kappa_r (bose w_r (thermal_scale T)) a (dag a) ++
     thermal_terms sqrtK kappa_m (bose w_m (thermal_scale T)) b (dag b)).

Definition row_at (T : K) (rho : Op) : seq K :=
  [:: expect rho (dag a *m a); bose w_r (thermal_scale T);
      expect rho (dag b *m b); bose w_m (thermal_scale T)].

Definition locals_at (T : K) (rho : Op) : locals :=
  Locals (Some (thermal_scale T)) (Some (collapse_at T))
         (Some (bose w_r (thermal_scale T)))
         (Some (kappa_m * bose w_m (thermal_scale T)))
         (Some (bose w_m (thermal_scale T))) (Some rho).

Lemma setitem2E (table : seq (seq K)) (idx : nat) (j : int) (k : nat) v :
  (idx < size table)%N ->
  norm_index (size (nth [::] table idx)) j = Ok k ->
  setitem2 table idx j v =
  Ok (update table idx (update (nth [::] table idx) k v)).
Proof.
move=> lt_idx Hj.
by rewrite /setitem2 (getitem_nat [::]) //= (setitem_ok _ Hj) /= /setitem /= lt_idx.
Qed.

Lemma nth_update_same (table : seq (seq K)) idx row :
  (idx < size table)%N -> nth [::] (update table idx row) idx = row.
Proof. by move=> lt_idx; rewrite nth_update // eqxx. Qed.

Lemma write_row (A : Type) (k : seq (seq K) -> result A)
    (table : seq (seq K)) (idx : nat) v0 v1 v2 v3 :
  (idx < size table)%N -> size (nth [::] table idx) = 4 ->
  (t <- setitem2 table idx 0 v0 ;;
   t <- setitem2 t idx 1 v1 ;;
   t <- setitem2 t idx 2 v2 ;;
   t <- setitem2 t idx 3 v3 ;;
   k t) = k (update table idx [:: v0; v1; v2; v3]).
Proof.
move=> lt_idx; case E: (nth [::] table idx) => [|x0 [|x1 [|x2 [|x3 [|]]]]] //= _.
rewrite (@setitem2E _ _ _ 0) ?E //=.
rewrite (@setitem2E _ _ _ 1) ?size_update ?nth_update_same //=.
rewrite update_update //.
rewrite (@setitem2E _ _ _ 2) ?size_update ?nth_update_same //=.
rewrite update_update //.
rewrite (@setitem2E _ _ _ 3) ?size_update ?nth_update_same //=.
by rewrite update_update.
Qed.

Local Arguments setitem2 : simpl never.

Lemma sweep_pointE (l : locals) (table : seq (seq K))
    (calls : seq (Op * seq Op)) (idx : nat) (T : K) :
  (idx < size table)%N -> size (nth [::] table idx) = 4 ->
  sweep_point H a b w_r w_m kappa_r kappa_m (l, table, calls) (idx, T) =
  (rho <- steadystate H (collapse_at T) ;;
   Ok (locals_at T rho, update table idx (row_at T rho),
       rcons calls (H, collapse_at T))).
Proof.
move=> lt_idx sz_row.
rewrite /sweep_point /locals_at /row_at /collapse_at /thermal_terms /assemble /=.
rewrite -/(thermal_scale T) -/(bose w_r (thermal_scale T)).
do 4![case: ifP => _ /=; rewrite -?/(bose w_m (thermal_scale T))];
by case: (steadystate H _) => //= rho; rewrite write_row.
Qed.

End Point.

(** *** Facts about the sweep *)

Section Sweep.

Variables (H a b : Op) (w_r w_m kappa_r kappa_m : K).

(** The rows of the table, each computed from its own temperature: the
    steady state for the collapse list of that temperature, then the four
    photon numbers.  The first failing solve aborts. *)
Fixpoint rows_of (T_vec : seq K) : result (seq (seq K)) :=
  match T_vec with
  | [::] => Ok [::]
  | T :: T_vec' =>
      rho <- steadystate H (collapse_at a b w_r w_m kappa_r kappa_m T) ;;
      rows <- rows_of T_vec' ;;
      Ok (row_at a b w_r w_m T rho :: rows)
  end.

(** The table and the record of the solver calls of a sweep state. *)
Definition table_and_calls (st : sweep_state) :
    seq (seq K) * seq (Op * seq Op) :=
  (st.1.2, st.2).

Definition calls_of (T_vec : seq K) : seq (Op * seq Op) :=
  [seq (H, collapse_at a b w_r w_m kappa_r kappa_m T) | T <- T_vec].

Lemma size_rows_of T_vec rows :
  rows_of T_vec = Ok rows ->
  size rows = size T_vec /\ all (fun row => size row == 4) rows.
Proof.
elim: T_vec rows => [|T Ts IH] rows /=; first by case=> <-.
case: (steadystate _ _) => //= rho; case E: (rows_of Ts) => [rows'|] //=.
by case=> <- /=; have [-> ->] := IH _ E.
Qed.

Lemma nth_rows_of T_vec rows idx :
  rows_of T_vec = Ok rows -> (idx < size T_vec)%N ->
  exists2 rho,
    steadystate H (collapse_at a b w_r w_m kappa_r kappa_m T_vec`_idx) = Ok rho
    & nth [::] rows idx = row_at a b w_r w_m T_vec`_idx rho.
Proof.
elim: T_vec rows idx => [|T Ts IH] rows idx //=.
case E1: (steadystate _ _) => [rho|] //=.
case E2: (rows_of Ts) => [rows'|] //= [<-].
case: idx => [|idx] /=; first by exists rho.
by rewrite ltnS; apply: IH.
Qed.

Local Arguments sweep_point : simpl never.

Lemma sweep_loop (T_vec : seq K) (m : nat) (l : locals)
    (table : seq (seq K)) (calls : seq (Op * seq Op)) :
  (m + size T_vec <= size table)%N ->
  all (fun row => size row == 4) table ->
  (st <- for_each (sweep_point H a b w_r w_m kappa_r kappa_m)
           (l, table, calls) (zip (iota m (size T_vec)) T_vec) ;;
   Ok (table_and_calls st)) =
  (rows <- rows_of T_vec ;;
   Ok (take m table ++ rows ++ drop (m + size T_vec) table,
       calls ++ calls_of T_vec)).
Proof.
elim: T_vec m l table calls => [|T Ts IH] m l table calls /=.
  by rewrite addn0 cat_take_drop cats0.
move=> le_m all4.
have lt_m : (m < size table)%N by apply: leq_trans le_m; rewrite addnS ltnS leq_addr.
have sz_m : size (nth [::] table m) = 4.
  by apply/eqP; move/(all_nthP [::]): all4; apply.
rewrite sweep_pointE //.
case: (steadystate _ _) => //= rho.
set table1 := update table m _.
have le1 : (m.+1 + size Ts <= size table1)%N.
  by rewrite size_update // addSn -addnS.
have all1 : all (fun row => size row == 4) table1 by apply: all_update.
rewrite (IH _ _ _ _ le1 all1) /table1.
case: (rows_of Ts) => //= rows.
by rewrite take_update // drop_update // !cat_rcons addSn addnS.
Qed.

End Sweep.

(** *** The table returned by [compute] *)

Lemma all_zeros rows cols : all (fun row => size row == cols) (zeros rows cols).
Proof. by rewrite /zeros all_nseq size_nseq eqxx orbT. Qed.

Lemma is_ok_rows_of H a b w_r w_m kappa_r kappa_m T_vec :
  is_ok (rows_of H a b w_r w_m kappa_r kappa_m T_vec) =
  all (fun T =>
         is_ok (steadystate H (collapse_at a b w_r w_m kappa_r kappa_m T)))
      T_vec.
Proof.
elim: T_vec => [|T Ts IH] //=; case: (steadystate _ _) => //= rho.
by rewrite -IH; case: (rows_of _ _ _ _ _ _ _ _).
Qed.

(** The loop that fills the table row by row computes the rows from the
    temperatures, one by one. *)
Lemma computeE (T_vec : seq K) (w_r w_m g w_d A kappa_r kappa_m : K) :
  compute T_vec w_r w_m g w_d A kappa_r kappa_m =
  rows_of (hamiltonian w_r w_m g w_d A) mode_a mode_b w_r w_m
          kappa_r kappa_m T_vec.
Proof.
have := @sweep_loop (hamiltonian w_r w_m g w_d A) mode_a mode_b w_r w_m
  kappa_r kappa_m T_vec 0 unbound (zeros (size T_vec) 4) [::].
rewrite add0n size_nseq leqnn all_zeros take0 /= => /(_ isT isT).
rewrite /compute /sweep /enumerate.
case: (for_each _ _ _) => [[[l table] calls]|e] /=;
  case: (rows_of _ _ _ _ _ _ _ _) => [rows|e'] //=; last by case=> ->.
by rewrite drop_oversize ?size_nseq // cats0 => -[-> _].
Qed.



(** *** Further facts about [compute] *)

Lemma rows_of_cat H a b w_r w_m kappa_r kappa_m (T1 T2 : seq K) :
  rows_of H a b w_r w_m kappa_r kappa_m (T1 ++ T2) =
  (t1 <- rows_of H a b w_r w_m kappa_r kappa_m T1 ;;
   t2 <- rows_of H a b w_r w_m kappa_r kappa_m T2 ;;
   Ok (t1 ++ t2)).
Proof.
elim: T1 => [|T T1 IH] /=; first by case: (rows_of _ _ _ _ _ _ _ _).
case: (steadystate _ _) => //= rho; rewrite IH.
case: (rows_of _ _ _ _ _ _ _ T1) => //= t1.
by case: (rows_of _ _ _ _ _ _ _ T2).
Qed.

Lemma sweep_calls (T_vec : seq K) (w_r w_m g w_d A kappa_r kappa_m : K) st :
  sweep T_vec w_r w_m g w_d A kappa_r kappa_m = Ok st ->
  st.2 = calls_of (hamiltonian w_r w_m g w_d A) mode_a mode_b w_r w_m
           kappa_r kappa_m T_vec.
Proof.
case: st => [[l table] calls]; rewrite /sweep /enumerate => E.
have := @sweep_loop (hamiltonian w_r w_m g w_d A) mode_a mode_b w_r w_m
  kappa_r kappa_m T_vec 0 unbound (zeros (size T_vec) 4) [::].
rewrite add0n size_nseq leqnn all_zeros E /= => /(_ isT isT).
by case: (rows_of _ _ _ _ _ _ _ _) => [rows|] //= [_ ->].
Qed.

Lemma sweep_is_ok (T_vec : seq K) (w_r w_m g w_d A kappa_r kappa_m : K) :
  is_ok (sweep T_vec w_r w_m g w_d A kappa_r kappa_m) =
  all (fun T => is_ok (steadystate (hamiltonian w_r w_m g w_d A)
         (collapse_at mode_a mode_b w_r w_m kappa_r kappa_m T))) T_vec.
Proof.
rewrite -is_ok_rows_of /sweep /enumerate.
have := @sweep_loop (hamiltonian w_r w_m g w_d A) mode_a mode_b w_r w_m
  kappa_r kappa_m T_vec 0 unbound (zeros (size T_vec) 4) [::].
rewrite add0n size_nseq leqnn all_zeros => /(_ isT isT).
by case: (for_each _ _ _) => [st|e] /=; case: (rows_of _ _ _ _ _ _ _ _).
Qed.

(** X6.  Every row of the table returned holds, for its temperature, the
    expectation of [a.dag() * a] and of [b.dag() * b] in the steady state
    that the solver found for the collapse list of that temperature, each
    followed by the thermal occupation of the mode. *)
Theorem compute_rows (T_vec : seq K) (w_r w_m g w_d A kappa_r kappa_m : K)
    (table : seq (seq K)) (idx : nat) :
  compute T_vec w_r w_m g w_d A kappa_r kappa_m = Ok table ->
  (idx < size T_vec)%N ->
  let a := mode_a in
  let b := mode_b in
  let w_th := thermal_scale T_vec`_idx in
  exists2 rho,
    steadystate (hamiltonian w_r w_m g w_d A)
      (collapse_at a b w_r w_m kappa_r kappa_m T_vec`_idx) = Ok rho
    & getitem table idx =
      Ok [:: expect rho (dag a *m a); 1 / (expK (w_r / w_th) - 1);
             expect rho (dag b *m b); 1 / (expK (w_m / w_th) - 1)].
Proof.
rewrite computeE => E lt_idx /=.
have [sz _] := size_rows_of E.
have [rho Hrho Hrow] := nth_rows_of E lt_idx.
by exists rho => //; rewrite (getitem_nat [::]) ?sz // Hrow.
Qed.


(** X8.  The sweep over two lists of temperatures put end to end gives the
    table of the first followed by the table of the second. *)
Theorem compute_cat (T1 T2 : seq K) (w_r w_m g w_d A kappa_r kappa_m : K) :
  compute (T1 ++ T2) w_r w_m g w_d A kappa_r kappa_m =
  (table1 <- compute T1 w_r w_m g w_d A kappa_r kappa_m ;;
   table2 <- compute T2 w_r w_m g w_d A kappa_r kappa_m ;;
   Ok (table1 ++ table2)).
Proof. by rewrite !computeE rows_of_cat. Qed.



(** X10.  With both dissipation rates equal to zero no collapse operator is
    passed to the solver, at any temperature. *)
Theorem sweep_no_dissipation (T_vec : seq K) (w_r w_m g w_d A : K) st :
  sweep T_vec w_r w_m g w_d A 0 0 = Ok st ->
  st.2 = [seq (hamiltonian w_r w_m g w_d A, [::]) | T <- T_vec].
Proof.
move=> /sweep_calls ->; rewrite /calls_of; apply: eq_map => T.
by rewrite /collapse_at /thermal_terms /assemble !mul0r ltxx.
Qed.

End Compute.
End Ex25.

(** ** Properties that span the three scripts *)

(** C1.  A rate contributes its weighted operator [sqrt(r) * A] exactly
    when [r > 0], and nothing when [r <= 0].  The collapse list of the spin
    chain is made of the gated terms of the sites in order; its length is
    the number of positive rates, it is [N] exactly when every rate is
    positive and smaller as soon as one rate is not.  The collapse list of
    the Jaynes-Cummings model is made of its three gated terms. *)
Theorem rate_gate (K : numFieldType) (sqrtK conj : K -> K)
    (destroy : forall d : nat, 'M[K]_d) (N Nc : nat)
    (rates : seq K) (sz_list : seq (SpinChain.Op K N)) (kappa gamma : K) :
  (N <= size rates)%N -> (N <= size sz_list)%N ->
  [/\ forall d r (A : 'M[K]_d),
        assemble sqrtK r A = Some (sqrtK r *: A) <-> 0 < r,
      forall d r (A : 'M[K]_d), r <= 0 -> assemble sqrtK r A = None,
      exists c : seq (SpinChain.Op K N),
        [/\ SpinChain.collapse_ops sqrtK rates sz_list = Ok c,
            c = pmap (fun k => assemble sqrtK rates`_k
                                 (sz_list`_k : SpinChain.Op K N))
                     (iota 0 N),
            size c = count (fun k => 0 < rates`_k) (iota 0 N),
            (size c == N) = all (fun k => 0 < rates`_k) (iota 0 N)
          & has (fun k => rates`_k <= 0) (iota 0 N) -> (size c < N)%N]
    & JaynesCummings.collapse_list sqrtK conj destroy Nc kappa gamma =
      pmap id
        [:: assemble sqrtK (kappa * (1 + JaynesCummings.n_th_a K))
              (JaynesCummings.a destroy Nc);
            assemble sqrtK (kappa * JaynesCummings.n_th_a K)
              (TwoMode.dag conj (JaynesCummings.a destroy Nc));
            assemble sqrtK gamma (JaynesCummings.sm destroy Nc)]].
Proof.
move=> le_r le_sz; split.
- by move=> d r A; apply: assembleP.
- by move=> d r A; apply: assemble_nonpos.
- exact: SpinChain.collapse_ops_gate.
- exact: JaynesCummings.collapse_list_gate.
Qed.

(** C2.  At a sweep point of temperature [T] the occupation numbers of the
    two modes are computed by the Bose formula from the thermal scale of
    [T], and the collapse list passed to the solver is made, for each mode,
    of the de-excitation term at rate [kappa * (1 + n_th)] with the
    annihilation operator and of the excitation term at rate
    [kappa * n_th] with its adjoint, each present only when its rate is
    positive.  The Jaynes-Cummings model has the same two terms for its
    cavity, with the occupation number fixed. *)
Theorem thermal_collapse_terms (K : numFieldType)
    (sqrtK expK conj : K -> K) (piK : K)
    (destroy : forall d : nat, 'M[K]_d) (N_r N_m Nc : nat)
    (steadystate : TwoMode.Op K N_r N_m -> seq (TwoMode.Op K N_r N_m) ->
                   result (TwoMode.Op K N_r N_m))
    (expect : TwoMode.Op K N_r N_m -> TwoMode.Op K N_r N_m -> K)
    (H a b : TwoMode.Op K N_r N_m) (w_r w_m kappa_r kappa_m : K)
    (l : Ex25.locals K N_r N_m) (table : seq (seq K))
    (calls : seq (TwoMode.Op K N_r N_m * seq (TwoMode.Op K N_r N_m)))
    (idx : nat) (T : K) (st' : Ex25.sweep_state K N_r N_m)
    (kappa gamma : K) :
  (idx < size table)%N -> size (nth [::] table idx) = 4 ->
  Ex25.sweep_point sqrtK expK conj piK steadystate expect H a b
    w_r w_m kappa_r kappa_m (l, table, calls) (idx, T) = Ok st' ->
  let w_th := Ex25.thermal_scale piK T in
  let n_r_th := Ex25.bose expK w_r w_th in
  let n_m_th := Ex25.bose expK w_m w_th in
  [/\ Ex25.w_th st'.1.1 = Some w_th,
      Ex25.n_r_th st'.1.1 = Some (1 / (expK (w_r / w_th) - 1)),
      Ex25.n_m_th st'.1.1 = Some (1 / (expK (w_m / w_th) - 1)),
      st'.2 = rcons calls
        (H, pmap id
              (thermal_terms sqrtK kappa_r n_r_th a (TwoMode.dag conj a) ++
               thermal_terms sqrtK kappa_m n_m_th b (TwoMode.dag conj b)))
    & JaynesCummings.collapse_list sqrtK conj destroy Nc kappa gamma =
      pmap id
        (thermal_terms sqrtK kappa (JaynesCummings.n_th_a K)
           (JaynesCummings.a destroy Nc)
           (TwoMode.dag conj (JaynesCummings.a destroy Nc))
         ++ [:: assemble sqrtK gamma (JaynesCummings.sm destroy Nc)])].
Proof.
move=> lt_idx sz_row; rewrite Ex25.sweep_pointE //.
case: (steadystate _ _) => //= rho [<-] /=; split=> //.
exact: JaynesCummings.collapse_list_gate.
Qed.

(** C7.  Operators lifted to two distinct sites of the chain commute, and
    so do the operators lifted to the two factors of a two-mode system. *)
Theorem lifted_operators_commute (K : numFieldType) (N m n : nat)
    (A B : 'M[K]_2) (C : 'M[K]_m) (D : 'M[K]_n) (i j : nat) :
  (i < N)%N -> (j < N)%N -> i != j ->
  (exists LA LB : SpinChain.Op K N,
     [/\ SpinChain.lift N A i = Ok LA, SpinChain.lift N B j = Ok LB
       & LA *m LB = LB *m LA]) /\
  TwoMode.tensor C 1%:M *m TwoMode.tensor 1%:M D =
  TwoMode.tensor 1%:M D *m TwoMode.tensor C 1%:M.
Proof.
move=> lt_i lt_j neq_ij; split.
  exists (SpinChain.lifted N A i), (SpinChain.lifted N B j).
  rewrite !(@SpinChain.lift_ok _ _ _ _ _ (norm_index_nat _)) //.
  by split=> //; rewrite SpinChain.lifted_mul // SpinChain.lifted_mulC.
by rewrite !TwoMode.pair_tensor_mul !mulmx1 !mul1mx.
Qed.

(** ** Instances over the rationals

    The elementary functions and the solvers are arbitrary in the
    properties above; here they are fixed to simple functions on [rat] and
    the properties are read at small concrete inputs. *)

Module Instance.

Definition Q : numFieldType := rat.

Definition sqrtQ (x : Q) : Q := x.
Definition expQ (x : Q) : Q := 2.
Definition conjQ (x : Q) : Q := x.
Definition piQ : Q := 3.
Definition destroyQ (d : nat) : 'M[Q]_d := 0.

(** A chain of two spins. *)
Definition sxQ : 'M[Q]_2 := 1%:M.
Definition syQ : 'M[Q]_2 := 0.
Definition szQ : 'M[Q]_2 := - 1%:M.
Definition ones2 : seq Q := [:: 1; 1].
Definition ones1 : seq Q := [:: 1].
Definition rates2 : seq Q := [:: 1; 0].
Definition zero_ops2 : seq (SpinChain.Op Q 2) := [:: 0; 0].

Definition odeQ (H : SpinChain.Op Q 2) (psi0 : unit) (tlist : seq Q)
    (c_ops e_ops : seq (SpinChain.Op Q 2)) : result (seq Q) := Ok tlist.
Definition mcQ (H : SpinChain.Op Q 2) (psi0 : unit) (tlist : seq Q)
    (ntraj : nat) (c_ops e_ops : seq (SpinChain.Op Q 2)) : result (seq Q) :=
  Ok tlist.

(** Two resonators with two levels each, and a solver that always answers
    the zero matrix. *)
Definition steadyQ (H : TwoMode.Op Q 2 2) (c_ops : seq (TwoMode.Op Q 2 2)) :
    result (TwoMode.Op Q 2 2) := Ok 0.
Definition expectQ (rho op : TwoMode.Op Q 2 2) : Q := 0.
Definition temperatures : seq Q := [:: 1; 2].



End Instance.

Lemma rate_gate_witness :
  exists c : seq (SpinChain.Op Instance.Q 2),
    SpinChain.collapse_ops Instance.sqrtQ Instance.rates2 Instance.zero_ops2
      = Ok c /\ size c = 1%N.
Proof.
have [_ _ [c [Hc _ sz_c _ _]] _] :=
  @rate_gate Instance.Q Instance.sqrtQ Instance.conjQ Instance.destroyQ 2 2
    Instance.rates2 Instance.zero_ops2 1 1 isT isT.
by exists c; split=> //; rewrite sz_c.
Defined.

Lemma hamiltonian_refines_spec_witness :
  exists sx_list sy_list sz_list : seq (SpinChain.Op Instance.Q 2),
    SpinChain.sigma_lists Instance.sxQ Instance.syQ Instance.szQ 2 =
      Ok (sx_list, sy_list, sz_list) /\
    SpinChain.hamiltonian Instance.ones2 Instance.ones1 Instance.ones1
      Instance.ones1 sx_list sy_list sz_list =
    Ok (SpinChain.spec_hamiltonian Instance.sxQ Instance.syQ Instance.szQ 2
          Instance.ones2 Instance.ones1 Instance.ones1 Instance.ones1).
Proof.
have [xs [ys [zs [E1 _ E2 _]]]] :=
  @SpinChain.hamiltonian_refines_spec Instance.Q Instance.sxQ Instance.syQ
    Instance.szQ 2 Instance.ones2 Instance.ones1 Instance.ones1
    Instance.ones1 isT isT isT isT.
by exists xs, ys, zs.
Defined.

Lemma unknown_solver_fails_witness :
  SpinChain.integrate Instance.sqrtQ Instance.sxQ Instance.syQ Instance.szQ
    Instance.odeQ Instance.mcQ Instance.ones2 Instance.ones1 Instance.ones1
    Instance.ones1 tt [:: 0] Instance.rates2 "rk4" = Raise UnboundLocalError.
Proof.
have [_ E] :=
  @SpinChain.unknown_solver_fails Instance.Q Instance.sqrtQ Instance.sxQ
    Instance.syQ Instance.szQ unit (seq Instance.Q) 2 Instance.odeQ
    Instance.mcQ Instance.ones2 Instance.ones1 Instance.ones1 Instance.ones1
    tt [:: 0] Instance.rates2 "rk4"
    (fun E => ltac:(discriminate E)) (fun E => ltac:(discriminate E)).
exact: E.
Defined.

Lemma lifted_operators_commute_witness :
  exists LA LB : SpinChain.Op Instance.Q 2,
    [/\ SpinChain.lift 2 Instance.sxQ 0 = Ok LA,
        SpinChain.lift 2 Instance.szQ 1 = Ok LB
      & LA *m LB = LB *m LA].
Proof.
have [W _] :=
  @lifted_operators_commute Instance.Q 2 2 2 Instance.sxQ Instance.szQ
    Instance.sxQ Instance.szQ 0 1 isT isT isT.
exact: W.
Defined.

Lemma thermal_collapse_terms_witness :
  exists st' : Ex25.sweep_state Instance.Q 2 2,
    Ex25.sweep_point Instance.sqrtQ Instance.expQ Instance.conjQ Instance.piQ
      Instance.steadyQ Instance.expectQ 0 0 0 1 1 1 1
      (Ex25.unbound Instance.Q 2 2, Ex25.zeros Instance.Q 1 4, [::])
      (0%N, 1) = Ok st' /\
    Ex25.n_r_th st'.1.1 = Some 1.
Proof.
have E := @Ex25.sweep_pointE Instance.Q Instance.sqrtQ Instance.expQ
  Instance.conjQ Instance.piQ 2 2 Instance.steadyQ Instance.expectQ
  0 0 0 1 1 1 1 (Ex25.unbound Instance.Q 2 2) (Ex25.zeros Instance.Q 1 4)
  [::] 0 1 isT erefl.
have [_ n_r _ _ _] :=
  @thermal_collapse_terms Instance.Q Instance.sqrtQ Instance.expQ
    Instance.conjQ Instance.piQ Instance.destroyQ 2 2 2 Instance.steadyQ
    Instance.expectQ 0 0 0 1 1 1 1 (Ex25.unbound Instance.Q 2 2)
    (Ex25.zeros Instance.Q 1 4) [::] 0 1 _ 1 1 isT erefl E.
eexists; split; first exact: E.
by rewrite n_r /Instance.expQ -[2]/(1 + 1) addrK divr1.
Defined.




Lemma sigma_lists_sites_witness :
  exists sz_list : seq (SpinChain.Op Instance.Q 2),
    getitem sz_list 1 = SpinChain.lift 2 Instance.szQ 1.
Proof.
have [xs [ys [zs [_ _ sites]]]] :=
  @SpinChain.sigma_lists_sites Instance.Q Instance.sxQ Instance.syQ
    Instance.szQ 2.
by exists zs; have [_ _ -> _] := sites 1%N isT.
Defined.

Lemma integrate_dispatch_witness :
  SpinChain.integrate Instance.sqrtQ Instance.sxQ Instance.syQ Instance.szQ
    Instance.odeQ Instance.mcQ Instance.ones2 Instance.ones1 Instance.ones1
    Instance.ones1 tt [:: 0; 1] Instance.rates2 "ode" = Ok [:: 0; 1].
Proof.
have [-> _] :=
  @SpinChain.integrate_dispatch Instance.Q Instance.sqrtQ Instance.sxQ
    Instance.syQ Instance.szQ unit (seq Instance.Q) 2 Instance.odeQ
    Instance.mcQ Instance.ones2 Instance.ones1 Instance.ones1 Instance.ones1
    tt [:: 0; 1] Instance.rates2 isT isT isT isT isT.
by [].
Defined.

Lemma short_arrays_raise_witness :
  SpinChain.integrate Instance.sqrtQ Instance.sxQ Instance.syQ Instance.szQ
    Instance.odeQ Instance.mcQ Instance.ones1 Instance.ones1 Instance.ones1
    Instance.ones1 tt [:: 0; 1] Instance.rates2 "ode" = Raise IndexError.
Proof.
exact: (@SpinChain.short_arrays_raise Instance.Q Instance.sqrtQ Instance.sxQ
  Instance.syQ Instance.szQ unit (seq Instance.Q) 2 Instance.odeQ
  Instance.mcQ Instance.ones1 Instance.ones1 Instance.ones1 Instance.ones1
  tt [:: 0; 1] Instance.rates2 "ode" isT).
Defined.

Lemma integrate_reads_prefix_witness :
  SpinChain.integrate Instance.sqrtQ Instance.sxQ Instance.syQ Instance.szQ
    Instance.odeQ Instance.mcQ (take 2 Instance.ones2)
    (take 1 Instance.ones2) (take 1 Instance.ones2) (take 1 Instance.ones2)
    tt [:: 0; 1] (take 2 Instance.rates2) "mc" =
  SpinChain.integrate Instance.sqrtQ Instance.sxQ Instance.syQ Instance.szQ
    Instance.odeQ Instance.mcQ Instance.ones2 Instance.ones2 Instance.ones2
    Instance.ones2 tt [:: 0; 1] Instance.rates2 "mc".
Proof.
exact: (@SpinChain.integrate_reads_prefix Instance.Q Instance.sqrtQ
  Instance.sxQ Instance.syQ Instance.szQ unit (seq Instance.Q) 2
  Instance.odeQ Instance.mcQ Instance.ones2 Instance.ones2 Instance.ones2
  Instance.ones2 tt [:: 0; 1] Instance.rates2 "mc" isT isT isT isT isT).
Defined.

Lemma compute_rows_witness :
  exists table : seq (seq Instance.Q),
    Ex25.compute Instance.sqrtQ Instance.expQ Instance.conjQ Instance.piQ
      Instance.destroyQ Instance.steadyQ Instance.expectQ
      Instance.temperatures 1 1 1 1 1 1 1 = Ok table /\
    getitem table 1 = Ok [:: 0; 1 / (2 - 1); 0; 1 / (2 - 1)].
Proof.
eexists; split; first by rewrite Ex25.computeE.
have [rho _ ->] :=
  @Ex25.compute_rows Instance.Q Instance.sqrtQ Instance.expQ Instance.conjQ
    Instance.piQ Instance.destroyQ 2 2 Instance.steadyQ Instance.expectQ
    Instance.temperatures 1 1 1 1 1 1 1 _ 1%N
    (Ex25.computeE _ _ _ _ _ _ _ _ _ _ _ _ _ _ _) isT.
by [].
Defined.



Lemma sweep_no_dissipation_witness :
  exists st : Ex25.sweep_state Instance.Q 2 2,
    Ex25.sweep Instance.sqrtQ Instance.expQ Instance.conjQ Instance.piQ
      Instance.destroyQ Instance.steadyQ Instance.expectQ
      Instance.temperatures 1 1 1 1 1 0 0 = Ok st /\
    size st.2 = 2.
Proof.
have := @Ex25.sweep_is_ok Instance.Q Instance.sqrtQ Instance.expQ
  Instance.conjQ Instance.piQ Instance.destroyQ 2 2 Instance.steadyQ
  Instance.expectQ Instance.temperatures 1 1 1 1 1 0 0.
case E: (Ex25.sweep _ _ _ _ _ _ _ _ _ _ _ _ _ _ _) => [st|e] // _.
exists st; split=> //.
by rewrite (@Ex25.sweep_no_dissipation Instance.Q Instance.sqrtQ
  Instance.expQ Instance.conjQ Instance.piQ Instance.destroyQ 2 2
  Instance.steadyQ Instance.expectQ Instance.temperatures 1 1 1 1 1 st E).
Defined.
